(** * kelliptic: Koblitz curves over prime fields

    A shallow embedding of [kelliptic/kelliptic.go] and the properties of
    its point arithmetic, scalar multiplication, point codec and modular
    square root.

    Conventions of the embedding:
    - a [*big.Int] is a [Z]; the [math/big] operations the package calls
      are collected in [Module Big], following the documentation of
      [math/big] (Euclidean [Mod] and [Div], [Exp] with an optional
      modulus, [ModInverse] returning nil when no inverse exists);
    - a [[]byte] is a [list byte];
    - a run-time panic (division by zero, nil dereference, index out of
      range) is the outcome [Panic]; the two unbounded loops of [Sqrt] are
      driven by a fuel counter and report [OutOfFuel] when it is exhausted. *)

From Stdlib Require Import ZArith List Lia Bool Strings.Byte Znumtheory Zpow_facts.
From Stdlib Require Import Zcong Zmod.ZmodInv.
From Stdlib Require Import Morphisms Setoid.
Import ListNotations.
Open Scope Z_scope.

(** ** Outcomes of a call *)

Inductive result (A : Type) : Type :=
| Ok (a : A)
| Panic
| OutOfFuel.

Arguments Ok {A} a.
Arguments Panic {A}.
Arguments OutOfFuel {A}.

Definition bind {A B : Type} (r : result A) (k : A -> result B) : result B :=
  match r with
  | Ok a => k a
  | Panic => Panic
  | OutOfFuel => OutOfFuel
  end.

Notation "x <- r ;; k" := (bind r (fun x => k))
  (at level 61, r at next level, right associativity).
Notation "' pat <- r ;; k" := (bind r (fun x => match x with pat => k end))
  (at level 61, pat pattern, r at next level, right associativity).

(** ** The part of [math/big] the package uses *)

Module Big.

(** [z.Mod(x, y)]: Euclidean modulus, a division-by-zero panic for y = 0. *)
Definition Mod (x y : Z) : result Z :=
  if y =? 0 then Panic else Ok (x mod Z.abs y).

(** [z.Div(x, y)]: Euclidean quotient, a division-by-zero panic for y = 0. *)
Definition Div (x y : Z) : result Z :=
  if y =? 0 then Panic else Ok (Z.sgn y * (x / Z.abs y)).

(** [z.ModInverse(g, n)]: the inverse of g in the ring of integers modulo
    |n|, in [0, |n|); nil ([None]) when g and n are not relatively prime.
    A negative g is first reduced with [Mod], which panics for n = 0. *)
Definition ModInverse (g n : Z) : result (option Z) :=
  let n := Z.abs n in
  g <- (if g <? 0 then Mod g n else Ok g) ;;
  if Z.gcd g n =? 1 then Ok (Some (Z.invmod g n)) else Ok None.

(** [z.Exp(x, y, m)] with receiver value [z] before the call.  With
    m = nil ([None]) or m = 0 the result is x**y, and 1 for y <= 0.
    Otherwise it is x**y mod |m|; for y < 0 the inverse of x is raised to
    |y|, and z is left unchanged when x has no inverse. *)
Definition Exp (z x y : Z) (m : option Z) : Z :=
  match m with
  | None => if y <=? 0 then 1 else x ^ y
  | Some m =>
      if m =? 0 then (if y <=? 0 then 1 else x ^ y)
      else if y <? 0 then
        match (if Z.gcd (x mod Z.abs m) (Z.abs m) =? 1
               then Some (Z.invmod x (Z.abs m)) else None) with
        | Some i => Zpow_mod i (- y) (Z.abs m)
        | None => z
        end
      else Zpow_mod x y (Z.abs m)
  end.

(** [x.Sign()] *)
Definition Sign (x : Z) : Z := Z.sgn x.

(** [z.Lsh(x, n)] *)
Definition Lsh (x n : Z) : Z := Z.shiftl x n.

(** [z.And(x, y)], on the two's complement representation. *)
Definition And (x y : Z) : Z := Z.land x y.

Definition byte_of_Z (z : Z) : byte :=
  match Byte.of_N (Z.to_N (z mod 256)) with
  | Some b => b
  | None => x00
  end.

Definition Z_of_byte (b : byte) : Z := Z.of_N (Byte.to_N b).

(** The base-256 digits of a non-negative number, least significant
    first; [fuel] bounds the number of digits. *)
Fixpoint digits_le (fuel : nat) (x : Z) : list byte :=
  match fuel with
  | O => []
  | S fuel' =>
      if x <=? 0 then [] else byte_of_Z x :: digits_le fuel' (x / 256)
  end.

(** [x.Bytes()]: the absolute value of x as a big-endian byte slice,
    without leading zero bytes (empty for 0). *)
Definition Bytes (x : Z) : list byte :=
  rev (digits_le (S (Z.to_nat (Z.log2 (Z.abs x)))) (Z.abs x)).

(** [z.SetBytes(buf)]: buf read as a big-endian unsigned integer. *)
Definition SetBytes (buf : list byte) : Z :=
  fold_left (fun acc b => acc * 256 + Z_of_byte b) buf 0.

End Big.

(** ** Curves *)

(** [type Curve struct]: a Koblitz curve y² = x³ + B over the field of
    order P. *)
Record Curve : Type := mkCurve {
  P : Z;        (* the order of the underlying field *)
  N : Z;        (* the order of the base point *)
  B : Z;        (* the constant of the curve equation *)
  Gx : Z;       (* (x,y) of the base point *)
  Gy : Z;
  BitSize : Z   (* the size of the underlying field *)
}.

(** [func (curve *Curve) IsOnCurve(x, y *big.Int) bool] *)
Definition IsOnCurve (curve : Curve) (x y : Z) : result bool :=
  let y2 := y * y in
  y2 <- Big.Mod y2 (P curve) ;;
  let x3 := x * x in
  let x3 := x3 * x in
  let x3 := x3 + B curve in
  x3 <- Big.Mod x3 (P curve) ;;
  Ok (x3 =? y2).

(** [func (curve *Curve) affineFromJacobian(x, y, z *big.Int)]: a nil
    [zinv] is dereferenced by the first [Mul]. *)
Definition affineFromJacobian (curve : Curve) (x y z : Z) : result (Z * Z) :=
  zinv <- Big.ModInverse z (P curve) ;;
  match zinv with
  | None => Panic
  | Some zinv =>
      let zinvsq := zinv * zinv in
      let xOut := x * zinvsq in
      xOut <- Big.Mod xOut (P curve) ;;
      let zinvsq := zinvsq * zinv in
      let yOut := y * zinvsq in
      yOut <- Big.Mod yOut (P curve) ;;
      Ok (xOut, yOut)
  end.

(** [func (curve *Curve) addJacobian(x1, y1, z1, x2, y2, z2 *big.Int)] *)
Definition addJacobian (curve : Curve) (x1 y1 z1 x2 y2 z2 : Z)
  : result (Z * Z * Z) :=
  let z1z1 := z1 * z1 in
  z1z1 <- Big.Mod z1z1 (P curve) ;;
  let z2z2 := z2 * z2 in
  z2z2 <- Big.Mod z2z2 (P curve) ;;

  let u1 := x1 * z2z2 in
  u1 <- Big.Mod u1 (P curve) ;;
  let u2 := x2 * z1z1 in
  u2 <- Big.Mod u2 (P curve) ;;
  let h := u2 - u1 in
  let h := if Big.Sign h =? -1 then h + P curve else h in
  let i := Big.Lsh h 1 in
  let i := i * i in
  let j := h * i in

  let s1 := y1 * z2 in
  let s1 := s1 * z2z2 in
  s1 <- Big.Mod s1 (P curve) ;;
  let s2 := y2 * z1 in
  let s2 := s2 * z1z1 in
  s2 <- Big.Mod s2 (P curve) ;;
  let r := s2 - s1 in
  let r := if Big.Sign r =? -1 then r + P curve else r in
  let r := Big.Lsh r 1 in
  let v := u1 * i in

  let x3 := r in
  let x3 := x3 * x3 in
  let x3 := x3 - j in
  let x3 := x3 - v in
  let x3 := x3 - v in
  x3 <- Big.Mod x3 (P curve) ;;

  let y3 := r in
  let v := v - x3 in
  let y3 := y3 * v in
  let s1 := s1 * j in
  let s1 := Big.Lsh s1 1 in
  let y3 := y3 - s1 in
  y3 <- Big.Mod y3 (P curve) ;;

  let z3 := z1 + z2 in
  let z3 := z3 * z3 in
  let z3 := z3 - z1z1 in
  let z3 := if Big.Sign z3 =? -1 then z3 + P curve else z3 in
  let z3 := z3 - z2z2 in
  let z3 := if Big.Sign z3 =? -1 then z3 + P curve else z3 in
  let z3 := z3 * h in
  z3 <- Big.Mod z3 (P curve) ;;

  Ok (x3, y3, z3).

(** [func (curve *Curve) Add(x1, y1, x2, y2 *big.Int)] *)
Definition Add (curve : Curve) (x1 y1 x2 y2 : Z) : result (Z * Z) :=
  let z := 1 in
  '(x3, y3, z3) <- addJacobian curve x1 y1 z x2 y2 z ;;
  affineFromJacobian curve x3 y3 z3.

(** [func (curve *Curve) doubleJacobian(x, y, z *big.Int)] *)
Definition doubleJacobian (curve : Curve) (x y z : Z) : result (Z * Z * Z) :=
  let a := x * x in
  let b := y * y in
  let c := b * b in

  let d := x + b in
  let d := d * d in
  let d := d - a in
  let d := d - c in
  let d := d * 2 in

  let e := 3 * a in
  let f := e * e in

  let x3 := 2 * d in
  let x3 := f - x3 in
  x3 <- Big.Mod x3 (P curve) ;;

  let y3 := d - x3 in
  let y3 := e * y3 in
  let y3 := y3 - 8 * c in
  y3 <- Big.Mod y3 (P curve) ;;

  let z3 := y * z in
  let z3 := 2 * z3 in
  z3 <- Big.Mod z3 (P curve) ;;

  Ok (x3, y3, z3).

(** [func (curve *Curve) Double(x1, y1 *big.Int)] *)
Definition Double (curve : Curve) (x1 y1 : Z) : result (Z * Z) :=
  let z1 := 1 in
  '(x3, y3, z3) <- doubleJacobian curve x1 y1 z1 ;;
  affineFromJacobian curve x3 y3 z3.

(** ** Scalar multiplication *)

(** The byte operations of the scan: [byte & 0x80] and [byte <<= 1], the
    shift truncated to eight bits. *)
Definition byte_and (a b : byte) : byte :=
  Big.byte_of_Z (Z.land (Big.Z_of_byte a) (Big.Z_of_byte b)).

Definition byte_shl (a : byte) (n : Z) : byte :=
  Big.byte_of_Z (Z.shiftl (Big.Z_of_byte a) n).

(** The loop state of [ScalarMult]: the Jacobian accumulator and
    [seenFirstTrue]. *)
Definition scan_state : Type := (Z * Z * Z * bool)%type.

(** One iteration of the inner loop, before [byte <<= 1]. *)
Definition scan_bit (curve : Curve) (Bx By Bz : Z) (st : scan_state)
  (b : byte) : result scan_state :=
  let '(x, y, z, seenFirstTrue) := st in
  '(x, y, z) <- (if seenFirstTrue then doubleJacobian curve x y z
                 else Ok (x, y, z)) ;;
  if Byte.eqb (byte_and b x80) x80 then
    if negb seenFirstTrue then Ok (x, y, z, true)
    else
      '(x, y, z) <- addJacobian curve Bx By Bz x y z ;;
      Ok (x, y, z, seenFirstTrue)
  else Ok (x, y, z, seenFirstTrue).

(** [for bitNum := 0; bitNum < 8; bitNum++], with [left] = 8 - bitNum. *)
Fixpoint scan_byte (left : nat) (curve : Curve) (Bx By Bz : Z)
  (st : scan_state) (b : byte) : result scan_state :=
  match left with
  | O => Ok st
  | S left' =>
      st <- scan_bit curve Bx By Bz st b ;;
      scan_byte left' curve Bx By Bz st (byte_shl b 1)
  end.

(** [for _, byte := range k] *)
Fixpoint scan_bytes (curve : Curve) (Bx By Bz : Z) (st : scan_state)
  (k : list byte) : result scan_state :=
  match k with
  | [] => Ok st
  | b :: k' =>
      st <- scan_byte 8 curve Bx By Bz st b ;;
      scan_bytes curve Bx By Bz st k'
  end.

(** [func (curve *Curve) ScalarMult(Bx, By *big.Int, k []byte)]; the
    result [nil, nil] is [None]. *)
Definition ScalarMult (curve : Curve) (Bx By : Z) (k : list byte)
  : result (option (Z * Z)) :=
  let Bz := 1 in
  let x := Bx in
  let y := By in
  let z := Bz in
  let seenFirstTrue := false in
  '(x, y, z, seenFirstTrue) <-
     scan_bytes curve Bx By Bz (x, y, z, seenFirstTrue) k ;;
  if negb seenFirstTrue then Ok None
  else
    xy <- affineFromJacobian curve x y z ;;
    Ok (Some xy).

(** [func (curve *Curve) ScalarBaseMult(k []byte)] *)
Definition ScalarBaseMult (curve : Curve) (k : list byte)
  : result (option (Z * Z)) :=
  ScalarMult curve (Gx curve) (Gy curve) k.

(** ** The registered curves (SEC 2) *)

Definition secp160k1 : Curve := {|
  P := 0xFFFFFFFFFFFFFFFFFFFFFFFFFFFFFFFEFFFFAC73;
  N := 0x0100000000000000000001B8FA16DFAB9ACA16B6B3;
  B := 0x0000000000000000000000000000000000000007;
  Gx := 0x3B4C382CE37AA192A4019E763036F4F5DD4D7EBB;
  Gy := 0x938CF935318FDCED6BC28286531733C3F03C4FEE;
  BitSize := 160 |}.

Definition secp192k1 : Curve := {|
  P := 0xFFFFFFFFFFFFFFFFFFFFFFFFFFFFFFFFFFFFFFFEFFFFEE37;
  N := 0xFFFFFFFFFFFFFFFFFFFFFFFE26F2FC170F69466A74DEFD8D;
  B := 0x000000000000000000000000000000000000000000000003;
  Gx := 0xDB4FF10EC057E9AE26B07D0280B7F4341DA5D1B1EAE06C7D;
  Gy := 0x9B2F2F6D9C5628A7844163D015BE86344082AA88D95E2F9D;
  BitSize := 192 |}.

Definition secp224k1 : Curve := {|
  P := 0xFFFFFFFFFFFFFFFFFFFFFFFFFFFFFFFFFFFFFFFFFFFFFFFEFFFFE56D;
  N := 0x010000000000000000000000000001DCE8D2EC6184CAF0A971769FB1F7;
  B := 0x00000000000000000000000000000000000000000000000000000005;
  Gx := 0xA1455B334DF099DF30FC28A169A467E9E47075A90F7E650EB6B7A45C;
  Gy := 0x7E089FED7FBA344282CAFBD6F7E319F7C0B0BD59E2CA4BDB556D61A5;
  BitSize := 224 |}.

Definition secp256k1 : Curve := {|
  P := 0xFFFFFFFFFFFFFFFFFFFFFFFFFFFFFFFFFFFFFFFFFFFFFFFFFFFFFFFEFFFFFC2F;
  N := 0xFFFFFFFFFFFFFFFFFFFFFFFFFFFFFFFEBAAEDCE6AF48A03BBFD25E8CD0364141;
  B := 0x0000000000000000000000000000000000000000000000000000000000000007;
  Gx := 0x79BE667EF9DCBBAC55A06295CE870B07029BFCDB2DCE28D959F2815B16F81798;
  Gy := 0x483ADA7726A3C4655DA4FBFC0E1108A8FD17B448A68554199C47D08FFB10D4B8;
  BitSize := 256 |}.

(** The accessors [S160], [S192], [S224], [S256]; the one-time
    initialisation they trigger only builds the four constants above. *)
Definition S160 : Curve := secp160k1.
Definition S192 : Curve := secp192k1.
Definition S224 : Curve := secp224k1.
Definition S256 : Curve := secp256k1.

(** The curves a caller can obtain from the package. *)
Definition registered : list Curve := [S160; S192; S224; S256].

(** ** Modular square root *)

(** [func legendre_symbol(a, p *big.Int) int] *)
Definition legendre_symbol (a p : Z) : result Z :=
  ls <- Big.Mod a p ;;
  if ls =? 0 then Ok 0
  else
    let ps := p - 1 in
    ls <- Big.Div ps 2 ;;
    let ls := Big.Exp ls a ls (Some p) in
    if ls =? ps then Ok (-1) else Ok 1.

(** [for c.Mod(s, TWO).Cmp(ZERO) == 0 { s.Div(s, TWO); e.Add(e, ONE) }] *)
Fixpoint split_twos (fuel : nat) (s e : Z) : result (Z * Z) :=
  match fuel with
  | O => OutOfFuel
  | S fuel' =>
      c <- Big.Mod s 2 ;;
      if c =? 0 then
        s <- Big.Div s 2 ;;
        split_twos fuel' s (e + 1)
      else Ok (s, e)
  end.

(** [for legendre_symbol(n, p) != -1 { n.Add(n, ONE) }] *)
Fixpoint find_non_residue (fuel : nat) (n p : Z) : result Z :=
  match fuel with
  | O => OutOfFuel
  | S fuel' =>
      l <- legendre_symbol n p ;;
      if negb (l =? -1) then find_non_residue fuel' (n + 1) p
      else Ok n
  end.

(** [for ; m.Cmp(r) < 0; m.Add(m, ONE) { if t.Cmp(ONE) == 0 { break };
    t.Exp(t, TWO, p) }]; only m is read after the loop. *)
Fixpoint find_m (fuel : nat) (t m r p : Z) : result Z :=
  match fuel with
  | O => OutOfFuel
  | S fuel' =>
      if m <? r then
        if t =? 1 then Ok m
        else find_m fuel' (Big.Exp t t 2 (Some p)) (m + 1) r p
      else Ok m
  end.

(** The refinement loop [for { ... }] of [Sqrt]. *)
Fixpoint shanks_loop (fuel : nat) (x b g r p : Z) : result Z :=
  match fuel with
  | O => OutOfFuel
  | S fuel' =>
      let t := b in
      let m := 0 in
      m <- find_m fuel t m r p ;;
      if m =? 0 then Ok x
      else
        let gs := r - m in
        let gs := gs - 1 in
        let gs := Big.Exp gs 2 gs None in
        let gs := Big.Exp gs g gs (Some p) in
        g <- Big.Mod (gs * gs) p ;;
        x <- Big.Mod (x * gs) p ;;
        b <- Big.Mod (b * g) p ;;
        let r := m in
        shanks_loop fuel' x b g r p
  end.

(** [func (curve *Curve) Sqrt(a *big.Int) *big.Int] *)
Definition Sqrt (fuel : nat) (curve : Curve) (a : Z) : result Z :=
  let p := P curve in
  l <- legendre_symbol a p ;;
  if negb (l =? 1) then Ok 0
  else if a =? 0 then Ok 0
  else if p =? 2 then Ok p
  else
    c <- Big.Mod p 4 ;;
    if c =? 3 then
      let c := p + 1 in
      c <- Big.Div c 4 ;;
      let c := Big.Exp c a c (Some p) in
      Ok c
    else
      let s := p - 1 in
      let e := 0 in
      '(s, e) <- split_twos fuel s e ;;
      let n := 2 in
      n <- find_non_residue fuel n p ;;
      let x := s + 1 in
      x <- Big.Div x 2 ;;
      let x := Big.Exp x a x (Some p) in
      let b := Big.Exp 0 a s (Some p) in
      let g := Big.Exp 0 n s (Some p) in
      let r := e in
      shanks_loop fuel x b g r p.

(** ** Point compression *)

(** [func (curve *Curve) CompressPoint(X, Y *big.Int) (cp []byte)] *)
Definition CompressPoint (curve : Curve) (X Y : Z) : list byte :=
  let by_ := Big.And Y 1 in
  let bx := Big.Bytes X in
  let tag := if by_ =? 1 then x03 else x02 in
  tag :: bx.

(** The three errors of [DecompressPoint]. *)
Inductive DecompressError : Type :=
| InvalidHeader   (* Not a compressed point. (Invalid Header) *)
| InvalidLength   (* Not a compressed point. (Require 1 + key size) *)
| NotOnCurve.     (* Not a compressed point. (Not on curve) *)

Section Decompress.

(** [elliptic.Unmarshal] of the Go standard library, which decodes the
    uncompressed form; [None] is its [nil, nil]. *)
Variable Unmarshal : Curve -> list byte -> option (Z * Z).

(** [func (curve *Curve) DecompressPoint(cp []byte) (X, Y *big.Int, err
    error)]: the coordinates (or [nil, nil]) and the error (or nil).
    [cp[0]] on an empty slice is an index-out-of-range panic. *)
Definition DecompressPoint (fuel : nat) (curve : Curve) (cp : list byte)
  : result (option (Z * Z) * option DecompressError) :=
  match cp with
  | [] => Panic
  | tag :: rest =>
      let decode (c : Z) :=
        let byteLen := Z.shiftr (BitSize curve + 7) 3 in
        if negb (Z.of_nat (length cp) =? 1 + byteLen)
        then Ok (None, Some InvalidLength)
        else
          let X := Big.SetBytes rest in
          Y <- Big.Mod (X * X) (P curve) ;;
          Y <- Big.Mod (Y * X) (P curve) ;;
          Y <- Big.Mod (Y + B curve) (P curve) ;;
          Y <- Sqrt fuel curve Y ;;
          if Y =? 0 then Ok (None, Some NotOnCurve)
          else
            let Y := if negb (c =? Big.And Y 1) then P curve - Y else Y in
            Ok (Some (X, Y), None)
      in
      if Byte.eqb tag x03 then decode 1
      else if Byte.eqb tag x02 then decode 0
      else if Byte.eqb tag x04 then Ok (Unmarshal curve cp, None)
      else Ok (None, Some InvalidHeader)
  end.

End Decompress.

(** * Properties *)

(** ** Reduction modulo P *)

Lemma Mod_ok (x m : Z) : m <> 0 -> Big.Mod x m = Ok (x mod Z.abs m).
Proof.
  intros Hm. unfold Big.Mod.
  destruct (Z.eqb_spec m 0); [contradiction | reflexivity].
Qed.

Lemma Mod_pos (x m : Z) : 0 < m -> Big.Mod x m = Ok (x mod m).
Proof.
  intros Hm. rewrite Mod_ok by lia. now rewrite Z.abs_eq by lia.
Qed.

Lemma Mod_zero (x : Z) : Big.Mod x 0 = Panic.
Proof. reflexivity. Qed.

(** Runs the successive reductions of a straight-line body, given a proof
    [H] that the modulus is not zero. *)
Ltac run_mod H :=
  repeat (cbv zeta; rewrite (Mod_ok _ _ H); cbn [bind]).

(** Splits a goal over a literal list, and a conjunction, into its parts
    without trying to convert the two sides of an equation. *)
Ltac each_element :=
  repeat (apply Forall_cons; [ | ]); try apply Forall_nil.

Ltac conjuncts :=
  repeat match goal with |- _ /\ _ => split end.

(** Decides a closed goal by evaluation. *)
Ltac by_evaluation :=
  solve [ vm_compute; reflexivity
        | vm_compute; discriminate
        | vm_compute; split; [ discriminate | reflexivity ] ].

(** ** Doubling *)

(** The doubling formula in the words of the specification: a = x²,
    b = y², c = b², d = 2·((x+b)²−a−c), e = 3a, f = e², x3 = f−2d,
    y3 = e·(d−x3)−8c, z3 = 2·y·z, each reduced mod P. *)
Definition double_formula (curve : Curve) (x y z : Z) : result (Z * Z * Z) :=
  let a := x ^ 2 in
  let b := y ^ 2 in
  let c := b ^ 2 in
  let d := 2 * ((x + b) ^ 2 - a - c) in
  let e := 3 * a in
  let f := e ^ 2 in
  let x3 := f - 2 * d in
  let y3 := e * (d - x3) - 8 * c in
  let z3 := 2 * y * z in
  x3 <- Big.Mod x3 (P curve) ;;
  y3 <- Big.Mod y3 (P curve) ;;
  z3 <- Big.Mod z3 (P curve) ;;
  Ok (x3, y3, z3).

Lemma sub_mod_inner (e d x c m : Z) :
  (e * (d - x mod m) - c) mod m = (e * (d - x) - c) mod m.
Proof.
  rewrite (Zminus_mod (e * (d - x mod m))), (Zminus_mod (e * (d - x))).
  f_equal. f_equal.
  rewrite <- (Zmult_mod_idemp_r (d - x mod m)), <- (Zmult_mod_idemp_r (d - x)).
  f_equal. f_equal.
  now rewrite Zminus_mod_idemp_r.
Qed.

(** C9. For every curve and every Jacobian input, [doubleJacobian] computes
    exactly the doubling formula of the specification (a = x², b = y²,
    c = b², d = 2·((x+b)²−a−c), e = 3a, f = e², x3 = f−2d,
    y3 = e·(d−x3)−8c, z3 = 2·y·z, each reduced mod P); its third component
    is 2·y·z reduced mod P, which differs from 3·y·z (at x = 0, y = z = 1
    on secp256k1 it is 2, not 3). *)
Theorem doubleJacobian_formula :
  (forall curve x y z,
     doubleJacobian curve x y z = double_formula curve x y z) /\
  (forall curve x y z, P curve <> 0 ->
     exists x3 y3,
       doubleJacobian curve x y z
       = Ok (x3, y3, (2 * y * z) mod Z.abs (P curve))) /\
  (exists x3 y3, doubleJacobian secp256k1 0 1 1 = Ok (x3, y3, 2)) /\
  (3 * 1 * 1) mod (P secp256k1) = 3.
Proof.
  assert (Heq : forall curve x y z,
             doubleJacobian curve x y z = double_formula curve x y z).
  { intros curve x y z. unfold doubleJacobian, double_formula.
    destruct (Z.eq_dec (P curve) 0) as [H0 | H0].
    - rewrite H0. reflexivity.
    - run_mod H0. rewrite sub_mod_inner.
      f_equal. f_equal; [ f_equal | ]; f_equal; ring. }
  split; [exact Heq | split; [ | split ]].
  - intros curve x y z H0. rewrite Heq. unfold double_formula.
    run_mod H0. eauto.
  - eexists. eexists. vm_compute. reflexivity.
  - reflexivity.
Qed.

Lemma doubleJacobian_formula_witness :
  P secp256k1 <> 0 /\
  exists x3 y3,
    doubleJacobian secp256k1 (Gx secp256k1) (Gy secp256k1) 1
    = Ok (x3, y3, (2 * Gy secp256k1 * 1) mod Z.abs (P secp256k1)).
Proof.
  split; [ discriminate | ].
  apply (proj1 (proj2 doubleJacobian_formula)). discriminate.
Defined.

(** ** The base points *)

(** C7. On each of secp160k1, secp192k1, secp224k1 and secp256k1,
    [IsOnCurve(Gx, Gy)] returns true: the base-point constants satisfy
    Gy² ≡ Gx³ + B (mod P). *)
Theorem base_points_on_curve :
  Forall (fun c => IsOnCurve c (Gx c) (Gy c) = Ok true /\
                   (Gy c * Gy c) mod P c = (Gx c * Gx c * Gx c + B c) mod P c)
         [secp160k1; secp192k1; secp224k1; secp256k1].
Proof.
  each_element; conjuncts; by_evaluation.
Qed.

(** ** Scalars without a set bit *)

Lemma scan_byte_zero (left : nat) (curve : Curve) (Bx By Bz x y z : Z) :
  scan_byte left curve Bx By Bz (x, y, z, false) x00 = Ok (x, y, z, false).
Proof.
  induction left as [| left IH]; [reflexivity | ].
  cbn [scan_byte scan_bit bind negb].
  change (Byte.eqb (byte_and x00 x80) x80) with false.
  change (byte_shl x00 1) with x00.
  cbn [bind]. exact IH.
Qed.

Lemma scan_bytes_zero (curve : Curve) (Bx By Bz x y z : Z) (k : list byte) :
  Forall (fun b => b = x00) k ->
  scan_bytes curve Bx By Bz (x, y, z, false) k = Ok (x, y, z, false).
Proof.
  induction 1 as [| b k Hb _ IH]; [reflexivity | ].
  subst b. cbn [scan_bytes]. rewrite scan_byte_zero. cbn [bind]. exact IH.
Qed.

(** C8. For every curve and base point, when the scalar k has no set bit
    (every byte is zero, or k is empty), [ScalarMult] returns the absent
    result [nil, nil]: a normal return without coordinates, not a failure. *)
Theorem ScalarMult_zero_absent (curve : Curve) (Bx By : Z) (k : list byte) :
  Forall (fun b => b = x00) k ->
  ScalarMult curve Bx By k = Ok None /\
  ScalarBaseMult curve k = Ok None.
Proof.
  intros Hk. unfold ScalarBaseMult, ScalarMult.
  rewrite !scan_bytes_zero by assumption. split; reflexivity.
Qed.

Lemma ScalarMult_zero_absent_witness :
  Forall (fun b => b = x00) [x00; x00; x00] /\
  ScalarMult secp256k1 (Gx secp256k1) (Gy secp256k1) [x00; x00; x00] = Ok None /\
  ScalarBaseMult secp256k1 [x00; x00; x00] = Ok None.
Proof.
  assert (H : Forall (fun b => b = x00) [x00; x00; x00])
    by (repeat constructor).
  split; [ exact H | ].
  exact (ScalarMult_zero_absent secp256k1 (Gx secp256k1) (Gy secp256k1) _ H).
Defined.

(** ** Decompression of malformed input *)

(** C10. [DecompressPoint] reads the tag byte [cp[0]] before any length
    validation.  On the empty byte sequence the read is out of bounds: the
    call panics, so it returns none of the three errors (nor any other
    result); and an unknown tag is rejected as an invalid header whatever
    the length of the input. *)
Theorem DecompressPoint_empty_panics
  (Unmarshal : Curve -> list byte -> option (Z * Z)) (fuel : nat)
  (curve : Curve) :
  DecompressPoint Unmarshal fuel curve [] = Panic /\
  (forall r, DecompressPoint Unmarshal fuel curve [] <> Ok r) /\
  (forall rest,
     DecompressPoint Unmarshal fuel curve (x05 :: rest)
     = Ok (None, Some InvalidHeader)).
Proof.
  split; [reflexivity | split].
  - intros r. unfold DecompressPoint. discriminate.
  - intros rest. reflexivity.
Qed.

(** ** Addition of a point to itself *)

Lemma Lsh_1 (x : Z) : Big.Lsh x 1 = 2 * x.
Proof. unfold Big.Lsh. now rewrite Z.shiftl_mul_pow2, Z.mul_comm by lia. Qed.

(** With both inputs equal and z = 1, the addition formula collapses:
    h = 0 and r = 0, hence the triple (0, 0, 0). *)
Lemma addJacobian_same_point (curve : Curve) (x y : Z) :
  P curve <> 0 -> addJacobian curve x y 1 x y 1 = Ok (0, 0, 0).
Proof.
  intros H0. unfold addJacobian. run_mod H0.
  unfold Big.Sign. rewrite !Lsh_1, !Z.sub_diag.
  change (Z.sgn 0 =? -1) with false. cbv iota.
  assert (E : forall a, a = 0 -> a mod Z.abs (P curve) = 0)
    by (intros a ->; apply Zmod_0_l).
  f_equal. f_equal; [ f_equal | ]; apply E; ring.
Qed.

(** Zero has no inverse modulo P when |P| > 1: [ModInverse] returns nil and
    the conversion to affine coordinates dereferences it. *)
Lemma affineFromJacobian_z0 (curve : Curve) (x y : Z) :
  1 < Z.abs (P curve) -> affineFromJacobian curve x y 0 = Panic.
Proof.
  intros H1. unfold affineFromJacobian, Big.ModInverse.
  cbn [Z.ltb Z.compare bind]. rewrite Z.gcd_0_l, Z.abs_idemp.
  destruct (Z.eqb_spec (Z.abs (P curve)) 1); [lia | reflexivity].
Qed.

Lemma Add_same_point (curve : Curve) (x y : Z) :
  1 < Z.abs (P curve) -> Add curve x y x y = Panic.
Proof.
  intros H1. unfold Add. cbv zeta.
  rewrite addJacobian_same_point by lia. cbn [bind].
  now apply affineFromJacobian_z0.
Qed.

(** C3. On secp256k1, at the on-curve base point (Gx, Gy): [Add(Gx, Gy, Gx,
    Gy)] does not return the double.  The addition formula yields the
    Jacobian triple (0, 0, 0), whose conversion to affine coordinates
    panics, while [Double(Gx, Gy)] returns the affine double.  The same
    holds on every registered curve. *)
Theorem Add_same_point_is_not_Double :
  let c := secp256k1 in
  IsOnCurve c (Gx c) (Gy c) = Ok true /\
  addJacobian c (Gx c) (Gy c) 1 (Gx c) (Gy c) 1 = Ok (0, 0, 0) /\
  Add c (Gx c) (Gy c) (Gx c) (Gy c) = Panic /\
  Double c (Gx c) (Gy c)
  = Ok (0xC6047F9441ED7D6D3045406E95C07CD85C778E4B8CEF3CA7ABAC09B95C709EE5,
        0x1AE168FEA63DC339A3C58419466CEAEEF7F632653266D0E1236431A950CFE52A) /\
  Forall (fun c => Add c (Gx c) (Gy c) (Gx c) (Gy c) = Panic /\
                   exists xy, Double c (Gx c) (Gy c) = Ok xy)
         registered.
Proof.
  assert (HP : Forall (fun c => 1 < Z.abs (P c)) registered)
    by (each_element; reflexivity).
  cbv zeta. split; [ | split; [ | split; [ | split ] ] ].
  - vm_compute. reflexivity.
  - apply addJacobian_same_point. discriminate.
  - apply Add_same_point. reflexivity.
  - vm_compute. reflexivity.
  - apply Forall_forall. intros c Hc. split.
    + apply Add_same_point.
      exact (proj1 (Forall_forall _ _) HP c Hc).
    + cbv [registered S160 S192 S224 S256 In] in Hc.
      destruct Hc as [<- | [<- | [<- | [<- | []]]]];
        eexists; vm_compute; reflexivity.
Qed.

(** ** Scalar multiplication beyond the order of the base point *)

(** C2. On secp160k1 with base point G = (Gx, Gy) of order N, and the
    scalar k = N + 2 in big-endian bytes (21 bytes, leading byte 0x01):
    [ScalarMult(Gx, Gy, k)] panics instead of returning the coordinates of
    k·G = 2·G.  The scan reaches (N+1)·G = G (the call with N + 1 returns
    G itself), and the last set bit of k adds G to it with the addition
    formula, which collapses to z = 0 on equal points; 2·G is what
    [Double] and [ScalarMult] with k = 2 return. *)
Theorem ScalarMult_order_plus_two :
  let c := secp160k1 in
  let G2 := (0x74FC71CB95E965FC54EE5FA0227AFF946533A0E3,
             0xCEC5178957B56930ED3EB7D49F0DB1DCF358CDF9) in
  IsOnCurve c (Gx c) (Gy c) = Ok true /\
  Big.Bytes (N c + 2)
  = [x01; x00; x00; x00; x00; x00; x00; x00; x00; x00; x01; xb8; xfa; x16;
     xdf; xab; x9a; xca; x16; xb6; xb5] /\
  ScalarMult c (Gx c) (Gy c) (Big.Bytes (N c + 1)) = Ok (Some (Gx c, Gy c)) /\
  ScalarMult c (Gx c) (Gy c) (Big.Bytes (N c + 2)) = Panic /\
  Double c (Gx c) (Gy c) = Ok G2 /\
  ScalarMult c (Gx c) (Gy c) [x02] = Ok (Some G2).
Proof.
  cbv zeta.
  split; [ | split; [ | split; [ | split; [ | split ] ] ] ];
    vm_compute; reflexivity.
Qed.

(** ** Sums of scalar multiples *)

(** C6. On secp256k1 with generator G and k1 = k2 = 1 (the byte 0x01),
    where no call of [ScalarMult] returns the absent result:
    [ScalarMult(G, (k1+k2) mod N)] returns 2·G, but [Add] applied to
    [ScalarMult(G, k1)] = G and [ScalarMult(G, k2)] = G panics, because the
    addition formula collapses on equal points. *)
Theorem ScalarMult_sum_of_equal_scalars :
  let c := secp256k1 in
  let k1 := [x01] in
  let k2 := [x01] in
  let G2 := (0xC6047F9441ED7D6D3045406E95C07CD85C778E4B8CEF3CA7ABAC09B95C709EE5,
             0x1AE168FEA63DC339A3C58419466CEAEEF7F632653266D0E1236431A950CFE52A) in
  ScalarMult c (Gx c) (Gy c) k1 = Ok (Some (Gx c, Gy c)) /\
  ScalarMult c (Gx c) (Gy c) k2 = Ok (Some (Gx c, Gy c)) /\
  Big.Bytes ((Big.SetBytes k1 + Big.SetBytes k2) mod N c) = [x02] /\
  ScalarMult c (Gx c) (Gy c)
    (Big.Bytes ((Big.SetBytes k1 + Big.SetBytes k2) mod N c)) = Ok (Some G2) /\
  Add c (Gx c) (Gy c) (Gx c) (Gy c) = Panic.
Proof.
  cbv zeta.
  split; [ | split; [ | split; [ | split ] ] ];
    vm_compute; reflexivity.
Qed.

(** ** Compression of points with a short X coordinate *)

(** An on-curve point with a one-byte X coordinate on each registered
    curve. *)
Definition short_points : list (Curve * Z * Z) :=
  [ (secp160k1, 3, 0x0C77A53FD35585A1DB7FF873CB32855F89C655D8);
    (secp192k1, 1, 2);
    (secp224k1, 2, 0xE93B7FA2385436563A622704B262C862C42B0B5D164148982B264BC2);
    (secp256k1, 1, 0x4218F20AE6C646B363DB68605822FB14264CA8D2587FDD6FBC750D587E76A7EE) ].

(** C5. On every registered curve there is an on-curve point (x, y), with
    0 <= x, y < P, whose compressed encoding is shorter than
    1 + ceil(BitSize/8) bytes: [CompressPoint] copies the bytes of X
    without padding them to the field width.  On secp192k1 the point
    (1, 2) is encoded as the two bytes 02 01, where the fixed width is 25. *)
Theorem CompressPoint_short_X :
  IsOnCurve secp192k1 1 2 = Ok true /\
  CompressPoint secp192k1 1 2 = [x02; x01] /\
  1 + (BitSize secp192k1 + 7) / 8 = 25 /\
  Forall (fun '(c, x, y) =>
            IsOnCurve c x y = Ok true /\
            0 <= x < P c /\ 0 <= y < P c /\
            length (CompressPoint c x y) = 2%nat /\
            2 < 1 + (BitSize c + 7) / 8)
         short_points.
Proof.
  conjuncts; [ by_evaluation .. | ].
  unfold short_points. each_element; conjuncts; by_evaluation.
Qed.

(** C1. On every registered curve there is an on-curve point (x, y), with
    0 <= x, y < P, that does not survive the round trip:
    [DecompressPoint] rejects the output of [CompressPoint] with the
    length error, because [CompressPoint] does not pad X to the width that
    [DecompressPoint] requires.  On secp192k1 the point is (1, 2).  At the
    base points, whose X occupies the full width, the round trip returns
    the point. *)
Theorem Decompress_Compress_short_X
  (Unmarshal : Curve -> list byte -> option (Z * Z)) (fuel : nat) :
  IsOnCurve secp192k1 1 2 = Ok true /\
  DecompressPoint Unmarshal fuel secp192k1 (CompressPoint secp192k1 1 2)
  = Ok (None, Some InvalidLength) /\
  Forall (fun '(c, x, y) =>
            IsOnCurve c x y = Ok true /\
            0 <= x < P c /\ 0 <= y < P c /\
            DecompressPoint Unmarshal fuel c (CompressPoint c x y)
            = Ok (None, Some InvalidLength))
         short_points /\
  Forall (fun c =>
            DecompressPoint Unmarshal 8 c (CompressPoint c (Gx c) (Gy c))
            = Ok (Some (Gx c, Gy c), None))
         registered.
Proof.
  conjuncts.
  - by_evaluation.
  - reflexivity.
  - unfold short_points. each_element; conjuncts;
      solve [ reflexivity | by_evaluation ].
  - unfold registered. each_element; by_evaluation.
Qed.

(** * Arithmetic of the group law *)

(** ** Congruences *)

(** a and b are congruent modulo m. *)
Definition eqm (m a b : Z) : Prop := a mod m = b mod m.

#[global] Instance eqm_Equivalence (m : Z) : Equivalence (eqm m).
Proof.
  unfold eqm. split.
  - intros a. reflexivity.
  - intros a b H. now symmetry.
  - intros a b c H1 H2. now rewrite H1.
Qed.

#[global] Instance eqm_add (m : Z) : Proper (eqm m ==> eqm m ==> eqm m) Z.add.
Proof.
  intros a a' Ha b b' Hb. unfold eqm in *.
  now rewrite Zplus_mod, Ha, Hb, <- Zplus_mod.
Qed.

#[global] Instance eqm_sub (m : Z) : Proper (eqm m ==> eqm m ==> eqm m) Z.sub.
Proof.
  intros a a' Ha b b' Hb. unfold eqm in *.
  now rewrite Zminus_mod, Ha, Hb, <- Zminus_mod.
Qed.

#[global] Instance eqm_mul (m : Z) : Proper (eqm m ==> eqm m ==> eqm m) Z.mul.
Proof.
  intros a a' Ha b b' Hb. unfold eqm in *.
  now rewrite Zmult_mod, Ha, Hb, <- Zmult_mod.
Qed.

Lemma eqm_mod (m a : Z) : eqm m (a mod m) a.
Proof. unfold eqm. apply Zmod_mod. Qed.

Lemma eqm_add_modulus (m a : Z) : eqm m (a + m) a.
Proof.
  unfold eqm. rewrite <- (Z.mul_1_l m) at 1. apply Z_mod_plus_full.
Qed.

Lemma eqm_ring (m a b : Z) : a = b -> eqm m a b.
Proof. intros ->. reflexivity. Qed.

(** The conditional correction [if h.Sign() == -1 { h.Add(h, P) }] keeps the
    residue. *)
Lemma eqm_sign_fix (m h : Z) :
  eqm m (if Big.Sign h =? -1 then h + m else h) h.
Proof.
  destruct (Big.Sign h =? -1); [apply eqm_add_modulus | reflexivity].
Qed.

(** Cancellation of a factor coprime with the modulus. *)
Lemma eqm_cancel (m c a b : Z) :
  m <> 0 -> Z.gcd c m = 1 -> eqm m (c * a) (c * b) -> eqm m a b.
Proof.
  intros Hm Hc H. unfold eqm in *.
  assert (H0 : ((a - b) * c) mod m = 0).
  { replace ((a - b) * c) with (c * a - c * b) by ring.
    rewrite Zminus_mod, H, Z.sub_diag. apply Zmod_0_l. }
  apply Z.cong_mul_cancel_r_coprime in H0; [ | assumption | assumption ].
  rewrite Zminus_mod in H0.
  pose proof (Z.mod_pos_bound a m) as Ba. pose proof (Z.mod_pos_bound b m) as Bb.
  pose proof (Z.mod_neg_bound a m) as Na. pose proof (Z.mod_neg_bound b m) as Nb.
  apply Z.mod_divide in H0; [ | assumption ].
  destruct H0 as [k Hk].
  assert (k = 0) by nia. lia.
Qed.

(** Removes the reductions [_ mod m] inside a sum of products. *)
Ltac strip_mod m t :=
  lazymatch t with
  | ?a mod m => strip_mod m a
  | (if Big.Sign ?h =? -1 then ?h + m else ?h) => strip_mod m h
  | ?a + ?b =>
      let a' := strip_mod m a in let b' := strip_mod m b in constr:(a' + b')
  | ?a - ?b =>
      let a' := strip_mod m a in let b' := strip_mod m b in constr:(a' - b')
  | ?a * ?b =>
      let a' := strip_mod m a in let b' := strip_mod m b in constr:(a' * b')
  | _ => t
  end.

Ltac prove_strip :=
  lazymatch goal with
  | |- eqm ?m (?a mod ?m) _ => transitivity a; [apply eqm_mod | prove_strip]
  | |- eqm ?m (if Big.Sign ?h =? -1 then ?h + ?m else ?h) _ =>
      transitivity h; [apply eqm_sign_fix | prove_strip]
  | |- eqm ?m (?a + ?b) _ => apply eqm_add; prove_strip
  | |- eqm ?m (?a - ?b) _ => apply eqm_sub; prove_strip
  | |- eqm ?m (?a * ?b) _ => apply eqm_mul; prove_strip
  | |- _ => reflexivity
  end.

(** Turns a goal [a mod m = b mod m], or [eqm m a b], into the congruence
    of the two sides without their inner reductions. *)
Ltac eqm_strip :=
  lazymatch goal with
  | |- ?a mod ?m = ?b mod ?m => change (eqm m a b)
  | |- _ => idtac
  end;
  lazymatch goal with
  | |- eqm ?m ?a ?b =>
      let a' := strip_mod m a in
      let b' := strip_mod m b in
      transitivity a'; [ prove_strip | ];
      transitivity b'; [ | symmetry; prove_strip ]
  end.

Lemma gcd_eqm (m a b : Z) : eqm m a b -> Z.gcd a m = Z.gcd b m.
Proof.
  intros H. rewrite <- (Z.gcd_mod_l a), <- (Z.gcd_mod_l b). now rewrite H.
Qed.

Lemma eqm_small (m a b : Z) :
  0 <= a < m -> 0 <= b < m -> eqm m a b -> a = b.
Proof.
  intros Ha Hb H. unfold eqm in H. now rewrite !Z.mod_small in H.
Qed.

(** ** From Jacobian to affine coordinates *)

(** The inverse that [ModInverse] hands to [affineFromJacobian]. *)
Lemma ModInverse_coprime (z p : Z) :
  1 < p -> Z.gcd z p = 1 -> Big.ModInverse z p = Ok (Some (Z.invmod z p)).
Proof.
  intros Hp Hz. unfold Big.ModInverse. rewrite Z.abs_eq by lia.
  destruct (Z.ltb_spec z 0).
  - rewrite Mod_pos by lia. cbn [bind].
    rewrite Z.gcd_mod_l, Hz, Z.invmod_mod_l. reflexivity.
  - cbn [bind]. rewrite Hz. reflexivity.
Qed.

Lemma ModInverse_not_coprime (z p : Z) :
  p <> 0 -> Z.gcd z p <> 1 -> Big.ModInverse z p = Ok None.
Proof.
  intros Hp Hz. unfold Big.ModInverse.
  assert (Hg : forall g, Z.gcd g p = Z.gcd z p ->
                 (if Z.gcd g (Z.abs p) =? 1
                  then Ok (Some (Z.invmod g (Z.abs p))) else Ok None)
                 = Ok (@None Z)).
  { intros g Hg. rewrite Z.gcd_abs_r, Hg.
    destruct (Z.eqb_spec (Z.gcd z p) 1); [contradiction | reflexivity]. }
  destruct (Z.ltb_spec z 0).
  - rewrite Mod_ok by lia. cbn [bind]. rewrite Z.abs_idemp.
    apply Hg. rewrite <- (Z.gcd_abs_r (z mod Z.abs p)), Z.gcd_mod_l.
    apply Z.gcd_abs_r.
  - cbn [bind]. now apply Hg.
Qed.

Lemma affineFromJacobian_coprime (curve : Curve) (x y z : Z) :
  1 < P curve -> Z.gcd z (P curve) = 1 ->
  affineFromJacobian curve x y z
  = Ok ((x * (Z.invmod z (P curve) * Z.invmod z (P curve))) mod P curve,
        (y * (Z.invmod z (P curve) * Z.invmod z (P curve)
              * Z.invmod z (P curve))) mod P curve).
Proof.
  intros Hp Hz. unfold affineFromJacobian.
  rewrite ModInverse_coprime by assumption. cbn [bind].
  rewrite !Mod_pos by lia. reflexivity.
Qed.

Lemma invmod_eqm (z p : Z) :
  1 < p -> Z.gcd z p = 1 -> eqm p (Z.invmod z p * z) 1.
Proof.
  intros Hp Hz. unfold eqm.
  rewrite Z.invmod_coprime by (try exact Hz; lia).
  symmetry. apply Z.mod_1_l. lia.
Qed.

(** X1. [affineFromJacobian] reverses the Jacobian transform: when z is
    invertible modulo P > 1, it returns the reduced pair (x', y') with
    x'·z² ≡ x and y'·z³ ≡ y (mod P), that is x' = x/z² and y' = y/z³ in the
    field. *)
Theorem affineFromJacobian_reverses_transform (curve : Curve) (x y z : Z) :
  1 < P curve -> Z.gcd z (P curve) = 1 ->
  exists x' y',
    affineFromJacobian curve x y z = Ok (x', y') /\
    0 <= x' < P curve /\ 0 <= y' < P curve /\
    (x' * (z * z)) mod P curve = x mod P curve /\
    (y' * (z * z * z)) mod P curve = y mod P curve.
Proof.
  intros Hp Hz. rewrite affineFromJacobian_coprime by assumption.
  pose proof (invmod_eqm z (P curve) Hp Hz) as Hi.
  set (i := Z.invmod z (P curve)) in *.
  eexists. eexists. split; [reflexivity | ].
  split; [apply Z.mod_pos_bound; lia | ].
  split; [apply Z.mod_pos_bound; lia | ].
  split.
  - change (eqm (P curve) ((x * (i * i)) mod P curve * (z * z)) x).
    rewrite eqm_mod.
    transitivity (x * ((i * z) * (i * z))); [apply eqm_ring; ring | ].
    rewrite Hi. apply eqm_ring. ring.
  - change (eqm (P curve) ((y * (i * i * i)) mod P curve * (z * z * z)) y).
    rewrite eqm_mod.
    transitivity (y * ((i * z) * (i * z) * (i * z))); [apply eqm_ring; ring | ].
    rewrite Hi. apply eqm_ring. ring.
Qed.

Lemma affineFromJacobian_reverses_transform_witness :
  exists x' y',
    affineFromJacobian secp160k1 12 40 2 = Ok (x', y') /\
    0 <= x' < P secp160k1 /\ 0 <= y' < P secp160k1 /\
    (x' * (2 * 2)) mod P secp160k1 = 12 mod P secp160k1 /\
    (y' * (2 * 2 * 2)) mod P secp160k1 = 40 mod P secp160k1.
Proof.
  apply (affineFromJacobian_reverses_transform secp160k1 12 40 2).
  - reflexivity.
  - vm_compute. reflexivity.
Defined.

(** X2. [affineFromJacobian] fails exactly on a z without an inverse: for
    a modulus P > 1 it panics (the nil result of [ModInverse] is
    dereferenced) if and only if gcd(z, P) is not 1; z = 0, the Jacobian
    form of the point at infinity, is such a z. *)
Theorem affineFromJacobian_panics_iff (curve : Curve) (x y z : Z) :
  1 < P curve ->
  (affineFromJacobian curve x y z = Panic <-> Z.gcd z (P curve) <> 1) /\
  affineFromJacobian curve x y 0 = Panic.
Proof.
  intros Hp.
  assert (Hiff : forall z, affineFromJacobian curve x y z = Panic
                           <-> Z.gcd z (P curve) <> 1).
  { intros z0. split.
    - intros Hpanic Hz.
      rewrite affineFromJacobian_coprime in Hpanic by assumption.
      discriminate.
    - intros Hz. unfold affineFromJacobian.
      rewrite ModInverse_not_coprime by (try assumption; lia). reflexivity. }
  split; [apply Hiff | ].
  apply Hiff. rewrite Z.gcd_0_l. lia.
Qed.

Lemma affineFromJacobian_panics_iff_witness :
  (affineFromJacobian secp256k1 5 6 0 = Panic
   <-> Z.gcd 0 (P secp256k1) <> 1) /\
  affineFromJacobian secp256k1 5 6 0 = Panic.
Proof.
  apply (affineFromJacobian_panics_iff secp256k1 5 6 0). reflexivity.
Defined.

(** ** Doubling in affine coordinates *)

Lemma doubleJacobian_z1 (curve : Curve) (x y : Z) :
  1 < P curve ->
  doubleJacobian curve x y 1
  = Ok ((3 * (x * x) * (3 * (x * x))
         - 2 * (((x + y * y) * (x + y * y) - x * x - y * y * (y * y)) * 2))
          mod P curve,
        (3 * (x * x)
         * (((x + y * y) * (x + y * y) - x * x - y * y * (y * y)) * 2
            - (3 * (x * x) * (3 * (x * x))
               - 2 * (((x + y * y) * (x + y * y) - x * x - y * y * (y * y)) * 2))
              mod P curve)
         - 8 * (y * y * (y * y))) mod P curve,
        (2 * (y * 1)) mod P curve).
Proof.
  intros Hp. unfold doubleJacobian.
  repeat (cbv zeta; rewrite Mod_pos by lia; cbn [bind]). reflexivity.
Qed.

(** The tangent at a point whose doubled y coordinate is invertible. *)
Lemma Double_coprime (curve : Curve) (x y : Z) :
  1 < P curve -> Z.gcd (2 * y) (P curve) = 1 ->
  exists l,
    eqm (P curve) (2 * y * l) (3 * x * x) /\
    Double curve x y
    = Ok ((l * l - 2 * x) mod P curve,
          (l * (x - (l * l - 2 * x) mod P curve) - y) mod P curve).
Proof.
  intros Hp Hy. unfold Double. cbv zeta.
  rewrite doubleJacobian_z1 by assumption. cbn [bind].
  assert (Hz : Z.gcd ((2 * (y * 1)) mod P curve) (P curve) = 1).
  { rewrite Z.gcd_mod_l, Z.mul_1_r. exact Hy. }
  rewrite affineFromJacobian_coprime by assumption.
  pose proof (invmod_eqm _ _ Hp Hz) as Hi.
  set (i := Z.invmod ((2 * (y * 1)) mod P curve) (P curve)) in *.
  rewrite eqm_mod in Hi.
  set (J := i * (2 * (y * 1))) in *.
  exists (3 * x * x * i).
  assert (Hx3 : eqm (P curve)
            ((3 * (x * x) * (3 * (x * x))
              - 2 * (((x + y * y) * (x + y * y) - x * x - y * y * (y * y)) * 2))
             * (i * i))
            (3 * x * x * i * (3 * x * x * i) - 2 * x)).
  { transitivity (3 * x * x * i * (3 * x * x * i) - 2 * x * (J * J));
      [ apply eqm_ring; unfold J; ring | ].
    rewrite Hi. apply eqm_ring. ring. }
  split.
  - transitivity (3 * x * x * J); [ apply eqm_ring; unfold J; ring | ].
    rewrite Hi. apply eqm_ring. ring.
  - f_equal. f_equal.
    { match goal with |- ?a mod _ = ?b mod _ =>
        change (eqm (P curve) a b) end.
      rewrite eqm_mod. exact Hx3. }
    match goal with |- ?a mod _ = ?b mod _ =>
      change (eqm (P curve) a b) end.
    eqm_strip.
    set (X3 := 3 * (x * x) * (3 * (x * x))
               - 2 * (((x + y * y) * (x + y * y) - x * x - y * y * (y * y)) * 2))
      in *.
    rewrite <- Hx3.
    transitivity
      (3 * x * x * i * (x * (J * J) - X3 * (i * i)) - y * (J * J * J));
      [ apply eqm_ring; unfold X3, J; ring | ].
    rewrite Hi. apply eqm_ring. ring.
Qed.

(** X3. [Double] computes the tangent rule: when 2·y is invertible modulo
    P > 1, [Double(x, y)] returns (x3, y3) with x3 = λ² − 2x and
    y3 = λ·(x − x3) − y (mod P), where λ is the slope of the tangent,
    2·y·λ ≡ 3·x² (mod P). *)
Theorem Double_tangent_rule (curve : Curve) (x y : Z) :
  1 < P curve -> Z.gcd (2 * y) (P curve) = 1 ->
  exists l x3 y3,
    Double curve x y = Ok (x3, y3) /\
    (2 * y * l) mod P curve = (3 * x * x) mod P curve /\
    x3 = (l * l - 2 * x) mod P curve /\
    y3 = (l * (x - x3) - y) mod P curve.
Proof.
  intros Hp Hg.
  destruct (Double_coprime curve x y Hp Hg) as [l [Hl Hdbl]].
  exists l. eexists. eexists.
  split; [exact Hdbl | split; [exact Hl | split; reflexivity]].
Qed.

Lemma Double_tangent_rule_witness :
  exists l x3 y3,
    Double secp160k1 (Gx secp160k1) (Gy secp160k1) = Ok (x3, y3) /\
    (2 * Gy secp160k1 * l) mod P secp160k1
    = (3 * Gx secp160k1 * Gx secp160k1) mod P secp160k1 /\
    x3 = (l * l - 2 * Gx secp160k1) mod P secp160k1 /\
    y3 = (l * (Gx secp160k1 - x3) - Gy secp160k1) mod P secp160k1.
Proof.
  apply (Double_tangent_rule secp160k1 (Gx secp160k1) (Gy secp160k1)).
  - reflexivity.
  - vm_compute. reflexivity.
Defined.

(** ** Addition in affine coordinates *)

Lemma addJacobian_z1 (curve : Curve) (x1 y1 x2 y2 : Z) :
  1 < P curve ->
  exists x3 y3 z3,
    addJacobian curve x1 y1 1 x2 y2 1 = Ok (x3, y3, z3) /\
    0 <= z3 < P curve /\
    eqm (P curve) z3 (2 * (x2 - x1)) /\
    eqm (P curve) x3
      (2 * (y2 - y1) * (2 * (y2 - y1))
       - (x2 - x1) * (2 * (x2 - x1) * (2 * (x2 - x1)))
       - 2 * (x1 * (2 * (x2 - x1) * (2 * (x2 - x1))))) /\
    eqm (P curve) y3
      (2 * (y2 - y1) * (x1 * (2 * (x2 - x1) * (2 * (x2 - x1))) - x3)
       - 2 * (y1 * ((x2 - x1) * (2 * (x2 - x1) * (2 * (x2 - x1)))))).
Proof.
  intros Hp. unfold addJacobian.
  repeat (cbv zeta; rewrite Mod_pos by lia; cbn [bind]).
  rewrite !Lsh_1.
  eexists. eexists. eexists. split; [reflexivity | ].
  split; [apply Z.mod_pos_bound; lia | ].
  split; [ | split ].
  - eqm_strip. apply eqm_ring. ring.
  - eqm_strip. apply eqm_ring. ring.
  - eqm_strip. apply eqm_ring. ring.
Qed.

(** The chord through two points whose x coordinates differ by an
    invertible amount. *)
Lemma Add_coprime (curve : Curve) (x1 y1 x2 y2 : Z) :
  1 < P curve -> Z.gcd (2 * (x2 - x1)) (P curve) = 1 ->
  exists l,
    eqm (P curve) ((x2 - x1) * l) (y2 - y1) /\
    Add curve x1 y1 x2 y2
    = Ok ((l * l - x1 - x2) mod P curve,
          (l * (x1 - (l * l - x1 - x2) mod P curve) - y1) mod P curve).
Proof.
  intros Hp Hg. unfold Add. cbv zeta.
  destruct (addJacobian_z1 curve x1 y1 x2 y2 Hp)
    as [X3 [Y3 [Z3 [-> [Hr [Hz [Hx Hy]]]]]]].
  cbn [bind].
  assert (Hz1 : Z.gcd Z3 (P curve) = 1) by (now rewrite (gcd_eqm _ _ _ Hz)).
  rewrite affineFromJacobian_coprime by assumption.
  pose proof (invmod_eqm _ _ Hp Hz1) as Hi.
  set (i := Z.invmod Z3 (P curve)) in *.
  rewrite Hz in Hi.
  set (J := i * (2 * (x2 - x1))) in *.
  exists (2 * (y2 - y1) * i).
  assert (Hx3 : eqm (P curve) (X3 * (i * i))
                  (2 * (y2 - y1) * i * (2 * (y2 - y1) * i) - x1 - x2)).
  { rewrite Hx.
    transitivity (2 * (y2 - y1) * i * (2 * (y2 - y1) * i)
                  - (x2 - x1) * (J * J) - 2 * (x1 * (J * J)));
      [ apply eqm_ring; unfold J; ring | ].
    rewrite Hi. apply eqm_ring. ring. }
  split.
  - transitivity ((y2 - y1) * J); [ apply eqm_ring; unfold J; ring | ].
    rewrite Hi. apply eqm_ring. ring.
  - f_equal. f_equal.
    + exact Hx3.
    + change (eqm (P curve) (Y3 * (i * i * i))
                (2 * (y2 - y1) * i
                 * (x1 - (2 * (y2 - y1) * i * (2 * (y2 - y1) * i) - x1 - x2)
                         mod P curve) - y1)).
      rewrite Hy. eqm_strip. rewrite <- Hx3.
      transitivity (2 * (y2 - y1) * i * (x1 * (J * J) - X3 * (i * i))
                    - y1 * (J * J * J));
        [ apply eqm_ring; unfold J; ring | ].
      rewrite Hi. apply eqm_ring. ring.
Qed.

Lemma Add_not_coprime (curve : Curve) (x1 y1 x2 y2 : Z) :
  1 < P curve -> Z.gcd (2 * (x2 - x1)) (P curve) <> 1 ->
  Add curve x1 y1 x2 y2 = Panic.
Proof.
  intros Hp Hg. unfold Add. cbv zeta.
  destruct (addJacobian_z1 curve x1 y1 x2 y2 Hp)
    as [X3 [Y3 [Z3 [-> [Hr [Hz _]]]]]].
  cbn [bind]. unfold affineFromJacobian.
  rewrite ModInverse_not_coprime; [ reflexivity | lia | ].
  now rewrite (gcd_eqm _ _ _ Hz).
Qed.

(** X4. [Add] computes the chord rule: when 2·(x2 − x1) is invertible
    modulo P > 1 (for an odd prime P: when x1 and x2 differ modulo P),
    [Add(x1, y1, x2, y2)] returns (x3, y3) with x3 = λ² − x1 − x2 and
    y3 = λ·(x1 − x3) − y1 (mod P), where λ is the slope of the chord,
    (x2 − x1)·λ ≡ y2 − y1 (mod P). *)
Theorem Add_chord_rule (curve : Curve) (x1 y1 x2 y2 : Z) :
  1 < P curve -> Z.gcd (2 * (x2 - x1)) (P curve) = 1 ->
  exists l x3 y3,
    Add curve x1 y1 x2 y2 = Ok (x3, y3) /\
    ((x2 - x1) * l) mod P curve = (y2 - y1) mod P curve /\
    x3 = (l * l - x1 - x2) mod P curve /\
    y3 = (l * (x1 - x3) - y1) mod P curve.
Proof.
  intros Hp Hg.
  destruct (Add_coprime curve x1 y1 x2 y2 Hp Hg) as [l [Hl Hadd]].
  exists l. eexists. eexists.
  split; [exact Hadd | split; [exact Hl | split; reflexivity]].
Qed.

Lemma Add_chord_rule_witness :
  exists l x3 y3,
    Add secp192k1 1 2 (Gx secp192k1) (Gy secp192k1) = Ok (x3, y3) /\
    ((Gx secp192k1 - 1) * l) mod P secp192k1
    = (Gy secp192k1 - 2) mod P secp192k1 /\
    x3 = (l * l - 1 - Gx secp192k1) mod P secp192k1 /\
    y3 = (l * (1 - x3) - 2) mod P secp192k1.
Proof.
  apply (Add_chord_rule secp192k1 1 2 (Gx secp192k1) (Gy secp192k1)).
  - reflexivity.
  - vm_compute. reflexivity.
Defined.

(** X5. [Add] has no case for the inputs the chord rule does not cover:
    for P > 1 it panics if and only if 2·(x2 − x1) is not invertible
    modulo P.  In particular it panics whenever x1 ≡ x2 (mod P): on two
    equal points (where the sum is the double) and on two opposite points
    (where the sum is the point at infinity). *)
Theorem Add_panics_iff (curve : Curve) (x1 y1 x2 y2 : Z) :
  1 < P curve ->
  (Add curve x1 y1 x2 y2 = Panic
   <-> Z.gcd (2 * (x2 - x1)) (P curve) <> 1) /\
  (x1 mod P curve = x2 mod P curve -> Add curve x1 y1 x2 y2 = Panic).
Proof.
  intros Hp.
  assert (Hiff : Add curve x1 y1 x2 y2 = Panic
                 <-> Z.gcd (2 * (x2 - x1)) (P curve) <> 1).
  { split.
    - intros Hpanic Hg.
      destruct (Add_coprime curve x1 y1 x2 y2 Hp Hg) as [l [_ Hadd]].
      rewrite Hadd in Hpanic. discriminate.
    - now apply Add_not_coprime. }
  split; [exact Hiff | ].
  intros Hx. apply Hiff.
  assert (E : eqm (P curve) (2 * (x2 - x1)) 0).
  { change (eqm (P curve) x1 x2) in Hx. rewrite Hx. apply eqm_ring. ring. }
  rewrite (gcd_eqm _ _ _ E), Z.gcd_0_l. lia.
Qed.

Lemma Add_panics_iff_witness :
  let c := secp256k1 in
  (Add c (Gx c) (Gy c) (Gx c) (P c - Gy c) = Panic
   <-> Z.gcd (2 * (Gx c - Gx c)) (P c) <> 1) /\
  (Gx c mod P c = Gx c mod P c ->
   Add c (Gx c) (Gy c) (Gx c) (P c - Gy c) = Panic).
Proof.
  apply (Add_panics_iff secp256k1 (Gx secp256k1) (Gy secp256k1)
           (Gx secp256k1) (P secp256k1 - Gy secp256k1)).
  reflexivity.
Defined.

(** X6. [Add] is commutative, failures included: for P > 1,
    [Add(x1, y1, x2, y2)] and [Add(x2, y2, x1, y1)] return the same point
    or both panic. *)
Theorem Add_commutative (curve : Curve) (x1 y1 x2 y2 : Z) :
  1 < P curve ->
  Add curve x1 y1 x2 y2 = Add curve x2 y2 x1 y1.
Proof.
  intros Hp.
  assert (Hsym : Z.gcd (2 * (x1 - x2)) (P curve)
                 = Z.gcd (2 * (x2 - x1)) (P curve)).
  { replace (2 * (x1 - x2)) with (- (2 * (x2 - x1))) by ring.
    apply Z.gcd_opp_l. }
  destruct (Z.eq_dec (Z.gcd (2 * (x2 - x1)) (P curve)) 1) as [Hg | Hg].
  - destruct (Add_coprime curve x1 y1 x2 y2 Hp Hg) as [l [Hl ->]].
    destruct (Add_coprime curve x2 y2 x1 y1 Hp ltac:(now rewrite Hsym))
      as [l' [Hl' ->]].
    assert (Hll : eqm (P curve) l l').
    { apply (eqm_cancel (P curve) (2 * (x2 - x1))); [lia | exact Hg | ].
      transitivity (2 * ((x2 - x1) * l)); [ apply eqm_ring; ring | ].
      rewrite Hl.
      transitivity (- 2 * ((x1 - x2) * l')); [ | apply eqm_ring; ring ].
      rewrite Hl'. apply eqm_ring. ring. }
    assert (Hx : (l * l - x1 - x2) mod P curve
                 = (l' * l' - x2 - x1) mod P curve).
    { change (eqm (P curve) (l * l - x1 - x2) (l' * l' - x2 - x1)).
      rewrite Hll. apply eqm_ring. ring. }
    f_equal. f_equal; [exact Hx | ].
    rewrite <- Hx.
    set (x3 := (l * l - x1 - x2) mod P curve).
    change (eqm (P curve) (l * (x1 - x3) - y1) (l' * (x2 - x3) - y2)).
    rewrite <- Hll.
    transitivity (l * (x2 - x3) - y2 - ((x2 - x1) * l - (y2 - y1)));
      [ apply eqm_ring; ring | ].
    rewrite Hl. apply eqm_ring. ring.
  - rewrite !Add_not_coprime; try assumption; [reflexivity | ].
    now rewrite Hsym.
Qed.

Lemma Add_commutative_witness :
  let c := secp160k1 in
  Add c 3 0x0C77A53FD35585A1DB7FF873CB32855F89C655D8 (Gx c) (Gy c)
  = Add c (Gx c) (Gy c) 3 0x0C77A53FD35585A1DB7FF873CB32855F89C655D8.
Proof.
  apply (Add_commutative secp160k1 3 0x0C77A53FD35585A1DB7FF873CB32855F89C655D8
           (Gx secp160k1) (Gy secp160k1)).
  reflexivity.
Defined.

(** X7. [Double] fails exactly when 2·y has no inverse: for P > 1 it
    panics if and only if gcd(2·y, P) is not 1; in particular on a point
    with y ≡ 0 (mod P), whose double is the point at infinity. *)
Theorem Double_panics_iff (curve : Curve) (x y : Z) :
  1 < P curve ->
  (Double curve x y = Panic <-> Z.gcd (2 * y) (P curve) <> 1) /\
  (y mod P curve = 0 -> Double curve x y = Panic).
Proof.
  intros Hp.
  assert (Hgcd : Z.gcd ((2 * (y * 1)) mod P curve) (P curve)
                 = Z.gcd (2 * y) (P curve))
    by (now rewrite Z.gcd_mod_l, Z.mul_1_r).
  assert (Hiff : Double curve x y = Panic <-> Z.gcd (2 * y) (P curve) <> 1).
  { unfold Double. cbv zeta.
    rewrite doubleJacobian_z1 by assumption. cbn [bind]. split.
    - intros Hpanic Hg.
      rewrite affineFromJacobian_coprime in Hpanic
        by (try assumption; now rewrite Hgcd).
      discriminate.
    - intros Hg. unfold affineFromJacobian.
      rewrite ModInverse_not_coprime; [ reflexivity | lia | ].
      now rewrite Hgcd. }
  split; [exact Hiff | ].
  intros Hy. apply Hiff.
  assert (E : eqm (P curve) (2 * y) 0).
  { change (eqm (P curve) y 0) in Hy. rewrite Hy. apply eqm_ring. ring. }
  rewrite (gcd_eqm _ _ _ E), Z.gcd_0_l. lia.
Qed.

Lemma Double_panics_iff_witness :
  (Double secp256k1 5 0 = Panic <-> Z.gcd (2 * 0) (P secp256k1) <> 1) /\
  (0 mod P secp256k1 = 0 -> Double secp256k1 5 0 = Panic).
Proof.
  apply (Double_panics_iff secp256k1 5 0). reflexivity.
Defined.

(** ** The curve equation is kept *)

Lemma IsOnCurve_true_iff (curve : Curve) (x y : Z) :
  0 < P curve ->
  IsOnCurve curve x y = Ok true
  <-> eqm (P curve) (y * y) (x * x * x + B curve).
Proof.
  intros Hp. unfold IsOnCurve.
  repeat (cbv zeta; rewrite Mod_pos by lia; cbn [bind]).
  unfold eqm. split.
  - intros H. injection H as H. apply Z.eqb_eq in H. now symmetry.
  - intros H. rewrite H, Z.eqb_refl. reflexivity.
Qed.

(** X8. [Double] keeps the curve equation: for P > 1, when (x, y) is on
    the curve and 2·y is invertible modulo P, [Double(x, y)] returns a
    point that [IsOnCurve] accepts. *)
Theorem Double_on_curve (curve : Curve) (x y : Z) :
  1 < P curve -> Z.gcd (2 * y) (P curve) = 1 ->
  IsOnCurve curve x y = Ok true ->
  exists x3 y3,
    Double curve x y = Ok (x3, y3) /\ IsOnCurve curve x3 y3 = Ok true.
Proof.
  intros Hp Hg Hon.
  apply IsOnCurve_true_iff in Hon; [ | lia ].
  destruct (Double_coprime curve x y Hp Hg) as [l [Hl ->]].
  eexists. eexists. split; [reflexivity | ].
  apply IsOnCurve_true_iff; [lia | ].
  assert (E1 : eqm (P curve) (x * x * x + B curve - y * y) 0)
    by (rewrite Hon; apply eqm_ring; ring).
  assert (E2 : eqm (P curve) (3 * x * x - 2 * y * l) 0)
    by (rewrite Hl; apply eqm_ring; ring).
  eqm_strip.
  set (X := l * l - 2 * x).
  transitivity (X * X * X + B curve
                - ((x * x * x + B curve - y * y)
                   + (X - x) * (3 * x * x - 2 * y * l)));
    [ apply eqm_ring; unfold X; ring | ].
  rewrite E1, E2. apply eqm_ring. ring.
Qed.

Lemma Double_on_curve_witness :
  let c := secp160k1 in
  exists x3 y3,
    Double c (Gx c) (Gy c) = Ok (x3, y3) /\ IsOnCurve c x3 y3 = Ok true.
Proof.
  apply (Double_on_curve secp160k1 (Gx secp160k1) (Gy secp160k1)).
  - reflexivity.
  - vm_compute. reflexivity.
  - vm_compute. reflexivity.
Defined.

(** X9. [Add] keeps the curve equation: for P > 1, when (x1, y1) and
    (x2, y2) are on the curve and 2·(x2 − x1) is invertible modulo P,
    [Add(x1, y1, x2, y2)] returns a point that [IsOnCurve] accepts. *)
Theorem Add_on_curve (curve : Curve) (x1 y1 x2 y2 : Z) :
  1 < P curve -> Z.gcd (2 * (x2 - x1)) (P curve) = 1 ->
  IsOnCurve curve x1 y1 = Ok true -> IsOnCurve curve x2 y2 = Ok true ->
  exists x3 y3,
    Add curve x1 y1 x2 y2 = Ok (x3, y3) /\ IsOnCurve curve x3 y3 = Ok true.
Proof.
  intros Hp Hg Hon1 Hon2.
  apply IsOnCurve_true_iff in Hon1; [ | lia ].
  apply IsOnCurve_true_iff in Hon2; [ | lia ].
  destruct (Add_coprime curve x1 y1 x2 y2 Hp Hg) as [l [Hl ->]].
  eexists. eexists. split; [reflexivity | ].
  apply IsOnCurve_true_iff; [lia | ].
  set (X := l * l - x1 - x2).
  set (c := 2 * l * l * x1 - 2 * l * y1 - (x1 * x2 + (x1 + x2) * X)).
  assert (E1 : eqm (P curve) (x1 * x1 * x1 + B curve - y1 * y1) 0)
    by (rewrite Hon1; apply eqm_ring; ring).
  assert (E2 : eqm (P curve) c 0).
  { apply (eqm_cancel (P curve) (2 * (x2 - x1))); [lia | exact Hg | ].
    transitivity
      (2 * (x2 * x2 * x2 + B curve
            - ((x2 - x1) * l + y1) * ((x2 - x1) * l + y1)
            - (x1 * x1 * x1 + B curve - y1 * y1)));
      [ apply eqm_ring; unfold c, X; ring | ].
    rewrite Hl, E1.
    transitivity (2 * (x2 * x2 * x2 + B curve - y2 * y2));
      [ apply eqm_ring; ring | ].
    rewrite Hon2. apply eqm_ring. ring. }
  eqm_strip. fold X.
  transitivity (X * X * X + B curve
                - ((x1 * x1 * x1 + B curve - y1 * y1) + (X - x1) * c));
    [ apply eqm_ring; unfold c, X; ring | ].
  rewrite E1, E2. apply eqm_ring. ring.
Qed.

Lemma Add_on_curve_witness :
  let c := secp160k1 in
  exists x3 y3,
    Add c 3 0x0C77A53FD35585A1DB7FF873CB32855F89C655D8 (Gx c) (Gy c)
    = Ok (x3, y3) /\ IsOnCurve c x3 y3 = Ok true.
Proof.
  apply (Add_on_curve secp160k1 3 0x0C77A53FD35585A1DB7FF873CB32855F89C655D8
           (Gx secp160k1) (Gy secp160k1)).
  - reflexivity.
  - vm_compute. reflexivity.
  - vm_compute. reflexivity.
  - vm_compute. reflexivity.
Defined.
